(** * Record management API: the service layer and its HTTP mapping

    A shallow embedding of [backend_api/src/api]: the [Record] model
    (models.py), the request schemas (schemas.py), the business logic
    (services.py) and the route handlers (main.py), followed by the
    properties of the record lifecycle.

    Modelling conventions.
    - The [records] table is a finite map from the primary key to the row
      stored under it; a SQLAlchemy [Session] is that table.  Every service
      function takes the table and returns its outcome together with the
      table it leaves behind, so that "nothing was written" is a statement
      about the second component.
    - Strings are [string]; SQLite compares [String]/[Text] columns with the
      BINARY collation, i.e. by equality.
    - Timestamps are integers.  The two clocks the model reads, the
      database's [func.now()] and Python's [datetime.utcnow], are inputs of
      each call.
    - Exceptions are values of [Exn]; a function that may raise returns
      [Exn + A]. *)

From stdpp Require Import base decidable option list sorting fin_maps gmap strings.

Local Open Scope string_scope.
Local Open Scope Z_scope.

(** ** models.py *)

Module models.

Module Record.
(** One row of the table [records]. [description] is the only nullable
    column. *)
Record t := mk {
  id : Z;
  title : string;
  description : option string;
  status : string;
  created_at : Z;
  updated_at : Z
}.

#[global] Instance eq_dec : EqDecision t.
Proof. solve_decision. Defined.
End Record.

End models.
Import models.

(** ** schemas.py *)

Module schemas.

(** A field of a JSON request body whose schema type is [Optional[...]] with
    default [None]: the key may be missing, may carry [null], or may carry a
    value. *)
Inductive Field (A : Type) : Type :=
| Omitted : Field A
| Null : Field A
| Given : A → Field A.
Arguments Omitted {A}.
Arguments Null {A}.
Arguments Given {A} _.

(** Attribute access on the parsed model: a missing key takes the default
    [None], and an explicit [null] is [None] as well. *)
Definition attr {A} (f : Field A) : option A :=
  match f with
  | Given a => Some a
  | Omitted | Null => None
  end.

(** [constr(strip_whitespace=True, min_length=.., max_length=..)]: the
    condition on the value the model holds (already stripped). *)
Definition constr (min_length max_length : nat) (s : string) : bool :=
  bool_decide (min_length ≤ String.length s ≤ max_length)%nat.

Module RecordCreate.
(** [RecordCreate(RecordBase)]. [description] defaults to [None] and
    [status] to ["active"], so the parsed model always holds a string
    there. *)
Record t := mk {
  title : string;
  description : option string;
  status : string
}.

(** What pydantic guarantees of every model it has validated. *)
Definition valid (p : t) : bool :=
  constr 1 255 (title p) && constr 1 50 (status p).
End RecordCreate.

Module RecordUpdate.
Record t := mk {
  title : Field string;
  description : Field string;
  status : Field string
}.

Definition valid_field (min_length max_length : nat) (f : Field string) : bool :=
  match attr f with
  | Some s => constr min_length max_length s
  | None => true
  end.

Definition valid (c : t) : bool :=
  valid_field 1 255 (title c) && valid_field 1 50 (status c).
End RecordUpdate.

End schemas.
Import schemas.

(** ** Exceptions *)

(** The exceptions the service layer raises itself, and the one the
    database driver raises under it. *)
Inductive Exn : Type :=
| ValueError (msg : string)
| LookupError (msg : string)
| OverflowError (msg : string).

(** ** The database session *)

Module db.

(** A session over the table [records], keyed by the primary key. *)
Abbreviation Session := (gmap Z Record.t).

(** The rows of the table, as a full scan yields them. *)
Definition rows (s : Session) : list Record.t := (map_to_list s).*2.

(** [Session.scalar(stmt)]: the first row of the result, or [None]. *)
Definition scalar (result : list Record.t) : option Record.t := head result.

(** The integers the driver can bind as a parameter of a statement: SQLite
    integers are signed 64-bit. *)
Definition in_int64 (z : Z) : bool := bool_decide (- 2 ^ 63 ≤ z < 2 ^ 63).

(** [Session.get(Record, ident)]: lookup by primary key.  The SELECT it
    emits binds [ident]; for an integer outside the signed 64-bit range the
    driver raises [OverflowError] instead of running it.  The keys of a
    table are rowids and lie inside that range, so on a table SQLite can
    hold the order of the two tests below makes no difference; the lookup
    comes first so that a key the table holds is always found. *)
Definition get (s : Session) (ident : Z) : Exn + option Record.t :=
  match s !! ident with
  | Some rec => inr (Some rec)
  | None =>
      if in_int64 ident then inr None
      else inl (OverflowError "Python int too large to convert to SQLite INTEGER")
  end.

Definition max_id (s : Session) : Z := foldr Z.max 0 (map_to_list s).*1.

(** The key SQLite gives a row inserted without one into a table with an
    [INTEGER PRIMARY KEY]: one more than the largest key in use, and 1 in an
    empty table.  (What SQLite does once the largest 64-bit key is in use is
    not modelled.) *)
Definition next_id (s : Session) : Z := max_id s + 1.

(** The readings of the two clocks during one call. *)
Record Clock := mkClock {
  func_now : Z;   (* [server_default=func.now()], evaluated by the database *)
  utcnow : Z      (* [datetime.utcnow], evaluated by the ORM at flush *)
}.

End db.
Import db.

(** ** services.py *)

(** Python's [a or b] on strings. *)
Definition str_or (a b : string) : string :=
  if decide (a = "") then b else a.

(** Truth value of an object returned by a query: [None] is false, a mapped
    instance is true. *)
Definition truthy {A} (o : option A) : bool :=
  match o with Some _ => true | None => false end.

Module services.

(** [Record.created_at.desc()]: [a] may come before [b]. *)
Definition created_at_desc (a b : Record.t) : Prop :=
  Record.created_at b ≤ Record.created_at a.

#[global] Instance created_at_desc_dec : RelDecision created_at_desc.
Proof. intros a b. unfold created_at_desc. apply _. Defined.

Definition list_records (db : Session) (status : option string) : list Record.t :=
  let stmt := rows db in
  let stmt :=
    match status with
    | Some s => if decide (s = "") then stmt
                else filter (λ r, Record.status r = s) stmt
    | None => stmt
    end in
  merge_sort created_at_desc stmt.

(** The query of [create_record]:
    [select(Record).where(Record.title == title, Record.status == "active")]. *)
Definition select_active_title (db : Session) (title : string) : list Record.t :=
  filter (λ r, Record.title r = title ∧ Record.status r = "active") (rows db).

Definition create_record (db : Session) (clk : Clock) (payload : RecordCreate.t)
  : (Exn + Record.t) * Session :=
  if bool_decide (RecordCreate.status payload = "active")
     && truthy (scalar (select_active_title db (RecordCreate.title payload)))
  then (inl (ValueError "A record with this title already exists in active status."), db)
  else
    let rec := {|
      Record.id := next_id db;
      Record.title := RecordCreate.title payload;
      Record.description := RecordCreate.description payload;
      Record.status := str_or (RecordCreate.status payload) "active";
      Record.created_at := func_now clk;
      Record.updated_at := utcnow clk
    |} in
    (inr rec, <[Record.id rec := rec]> db).

Definition get_record (db : Session) (record_id : Z) : Exn + option Record.t :=
  get db record_id.

Definition new_title (changes : RecordUpdate.t) (rec : Record.t) : string :=
  match attr (RecordUpdate.title changes) with
  | Some t => t
  | None => Record.title rec
  end.

Definition new_status (changes : RecordUpdate.t) (rec : Record.t) : string :=
  match attr (RecordUpdate.status changes) with
  | Some s => s
  | None => Record.status rec
  end.

(** The query of [update_record]:
    [select(Record).where(Record.title == new_title,
                          Record.status == "active", Record.id != rec.id)]. *)
Definition select_other_active_title (db : Session) (title : string) (rec_id : Z)
  : list Record.t :=
  filter (λ r, Record.title r = title ∧ Record.status r = "active"
               ∧ Record.id r ≠ rec_id) (rows db).

(** The three conditional assignments of [update_record]. *)
Definition apply_changes (changes : RecordUpdate.t) (rec : Record.t) : Record.t :=
  let rec :=
    match attr (RecordUpdate.title changes) with
    | Some t => Record.mk (Record.id rec) t (Record.description rec)
                  (Record.status rec) (Record.created_at rec) (Record.updated_at rec)
    | None => rec
    end in
  let rec :=
    match attr (RecordUpdate.description changes) with
    | Some d => Record.mk (Record.id rec) (Record.title rec) (Some d)
                  (Record.status rec) (Record.created_at rec) (Record.updated_at rec)
    | None => rec
    end in
  match attr (RecordUpdate.status changes) with
  | Some s => Record.mk (Record.id rec) (Record.title rec) (Record.description rec)
                s (Record.created_at rec) (Record.updated_at rec)
  | None => rec
  end.

(** [db.add(rec); db.commit(); db.refresh(rec)] on a persistent instance.
    The flush compares every attribute with the value loaded from the row
    and emits an UPDATE only when one of them differs; [onupdate] is part
    of that UPDATE, so [updated_at] takes the clock's reading exactly when
    a column changed. *)
Definition flush (clk : Clock) (loaded rec : Record.t) : Record.t :=
  if decide (rec = loaded) then loaded
  else Record.mk (Record.id rec) (Record.title rec) (Record.description rec)
         (Record.status rec) (Record.created_at rec) (utcnow clk).

Definition update_record (db : Session) (clk : Clock) (record_id : Z)
    (changes : RecordUpdate.t) : (Exn + Record.t) * Session :=
  match get db record_id with
  | inl e => (inl e, db)
  | inr None => (inl (LookupError "Record not found"), db)
  | inr (Some rec) =>
    if bool_decide (new_status changes rec = "active")
       && truthy (scalar (select_other_active_title db (new_title changes rec)
                            (Record.id rec)))
    then (inl (ValueError "Another active record with this title already exists."), db)
    else
      let rec' := flush clk rec (apply_changes changes rec) in
      (inr rec', <[record_id := rec']> db)
  end.

Definition delete_record (db : Session) (record_id : Z)
  : (Exn + bool * option Z) * Session :=
  match get db record_id with
  | inl e => (inl e, db)
  | inr None => (inr (false, None), db)
  | inr (Some _) => (inr (true, Some record_id), delete record_id db)
  end.

End services.

(** ** main.py *)

Module main.

Inductive Content : Type :=
| JSONRecord (rec : Record.t)
| JSONList (recs : list Record.t)
| JSONMessage (message : string)
| Detail (detail : string)
| NoContent.

Record Response := mkResponse {
  status_code : Z;
  content : Content
}.

Definition HTTP_201_CREATED := 201.
Definition HTTP_204_NO_CONTENT := 204.
Definition HTTP_404_NOT_FOUND := 404.
Definition HTTP_409_CONFLICT := 409.

(** [raise HTTPException(status_code=.., detail=..)]. *)
Definition HTTPException (status_code : Z) (detail : string) : Response :=
  mkResponse status_code (Detail detail).

(** An exception no handler of the route catches leaves it as a server
    error. *)
Definition unhandled : Response := mkResponse 500 (Detail "Internal Server Error").

Definition health_check : Response := mkResponse 200 (JSONMessage "Healthy").

Definition list_records (status : option string) (db : Session) : Response * Session :=
  (mkResponse 200 (JSONList (services.list_records db status)), db).

Definition create_record (clk : Clock) (payload : RecordCreate.t) (db : Session)
  : Response * Session :=
  match services.create_record db clk payload with
  | (inr rec, db') => (mkResponse HTTP_201_CREATED (JSONRecord rec), db')
  | (inl (ValueError e), db') => (HTTPException HTTP_409_CONFLICT e, db')
  | (inl (LookupError _), db') => (unhandled, db')
  | (inl (OverflowError _), db') => (unhandled, db')
  end.

Definition get_record (record_id : Z) (db : Session) : Response * Session :=
  match services.get_record db record_id with
  | inl _ => (unhandled, db)
  | inr None => (HTTPException HTTP_404_NOT_FOUND "Record not found", db)
  | inr (Some rec) => (mkResponse 200 (JSONRecord rec), db)
  end.

Definition update_record (clk : Clock) (record_id : Z) (changes : RecordUpdate.t)
    (db : Session) : Response * Session :=
  match services.update_record db clk record_id changes with
  | (inr rec, db') => (mkResponse 200 (JSONRecord rec), db')
  | (inl (LookupError _), db') =>
      (HTTPException HTTP_404_NOT_FOUND "Record not found", db')
  | (inl (ValueError e), db') => (HTTPException HTTP_409_CONFLICT e, db')
  | (inl (OverflowError _), db') => (unhandled, db')
  end.

(** The route has no [try]: whatever the service raises escapes. *)
Definition delete_record (record_id : Z) (db : Session) : Response * Session :=
  match services.delete_record db record_id with
  | (inl _, db') => (unhandled, db')
  | (inr (false, _), db') =>
      (HTTPException HTTP_404_NOT_FOUND "Record not found", db')
  | (inr (true, _), db') => (mkResponse HTTP_204_NO_CONTENT NoContent, db')
  end.

End main.

(** ** The request loop *)

(** The three routes that write, with the clock readings of the call. *)
Inductive Request : Type :=
| POST_records (clk : Clock) (payload : RecordCreate.t)
| PUT_records (clk : Clock) (record_id : Z) (changes : RecordUpdate.t)
| DELETE_records (record_id : Z).

(** FastAPI parses the body into the annotated model before it calls the
    route, so a handler only ever sees a validated model. *)
Definition validated (req : Request) : bool :=
  match req with
  | POST_records _ payload => RecordCreate.valid payload
  | PUT_records _ _ changes => RecordUpdate.valid changes
  | DELETE_records _ => true
  end.

Definition handle (req : Request) (db : Session) : main.Response * Session :=
  match req with
  | POST_records clk payload => main.create_record clk payload db
  | PUT_records clk record_id changes => main.update_record clk record_id changes db
  | DELETE_records record_id => main.delete_record record_id db
  end.

(** Requests served one after the other. *)
Definition serve (reqs : list Request) (db : Session) : Session :=
  fold_left (λ db req, (handle req db).2) reqs db.

(** ** schemas.py: validation of a request body *)

Module Body.
(** The JSON object of a request body, as far as the three keys of the
    schemas go and with strings as the only values. *)
Record t := mk {
  title : Field string;
  description : Field string;
  status : Field string
}.
End Body.

Section validation.

(** The characters [strip_whitespace] removes. *)
Variable whitespace : Ascii.ascii → bool.

Fixpoint lstrip (s : string) : string :=
  match s with
  | String a s' => if whitespace a then lstrip s' else s
  | EmptyString => EmptyString
  end.

Fixpoint rstrip (s : string) : string :=
  match s with
  | String a s' =>
      match rstrip s' with
      | EmptyString => if whitespace a then EmptyString else String a EmptyString
      | r => String a r
      end
  | EmptyString => EmptyString
  end.

Definition strip (s : string) : string := rstrip (lstrip s).

(** [constr(strip_whitespace=True, min_length=.., max_length=..)] as a
    validator: strip first, then check the length of what is left. *)
Definition validate_constr (min_length max_length : nat) (raw : string)
  : option string :=
  let s := strip raw in
  if constr min_length max_length s then Some s else None.

(** [RecordCreate]: [title] is required ([Field(...)]), [description] is
    [Optional[str]] with default [None], [status] defaults to ["active"]
    and, not being [Optional], refuses [null]. *)
Definition validate_RecordCreate (body : Body.t) : option RecordCreate.t :=
  match Body.title body with
  | Given raw =>
      title ← validate_constr 1 255 raw;
      status ← match Body.status body with
               | Omitted => Some "active"
               | Null => None
               | Given raw => validate_constr 1 50 raw
               end;
      Some (RecordCreate.mk title (attr (Body.description body)) status)
  | Omitted | Null => None
  end.

(** An [Optional[constr(..)]] field with default [None]. *)
Definition validate_optional (min_length max_length : nat) (f : Field string)
  : option (Field string) :=
  match f with
  | Given raw => Given <$> validate_constr min_length max_length raw
  | Omitted => Some Omitted
  | Null => Some Null
  end.

Definition validate_RecordUpdate (body : Body.t) : option RecordUpdate.t :=
  title ← validate_optional 1 255 (Body.title body);
  status ← validate_optional 1 50 (Body.status body);
  Some (RecordUpdate.mk title (Body.description body) status).

(** A call of a writing route as it arrives, body not yet validated. *)
Inductive Call : Type :=
| POST_body (clk : Clock) (body : Body.t)
| PUT_body (clk : Clock) (record_id : Z) (body : Body.t)
| DELETE_id (record_id : Z).

(** The request the route function is called with, if the body validates. *)
Definition accept (c : Call) : option Request :=
  match c with
  | POST_body clk body => POST_records clk <$> validate_RecordCreate body
  | PUT_body clk record_id body =>
      PUT_records clk record_id <$> validate_RecordUpdate body
  | DELETE_id record_id => Some (DELETE_records record_id)
  end.

(** A call whose body is refused never reaches the route function. *)
Definition receive (c : Call) (db : Session) : Session :=
  match accept c with
  | Some req => (handle req db).2
  | None => db
  end.

Definition receive_all (calls : list Call) (db : Session) : Session :=
  fold_left (λ db c, receive c db) calls db.

End validation.

(** ** Properties of a table *)

(** Every row is stored under its own [id]: [id] is the primary key. *)
Definition keyed_by_id (db : Session) : Prop :=
  ∀ i r, db !! i = Some r → Record.id r = i.

(** No two rows with status ["active"] have the same title. *)
Definition unique_active (db : Session) : Prop :=
  ∀ i j r1 r2,
    db !! i = Some r1 → db !! j = Some r2 →
    Record.status r1 = "active" → Record.status r2 = "active" →
    Record.title r1 = Record.title r2 → i = j.

(** Every row fits the declared columns and the schema: a title of 1 to
    255 characters and a status of 1 to 50. *)
Definition rows_fit (db : Session) : Prop :=
  ∀ i r, db !! i = Some r →
         constr 1 255 (Record.title r) = true ∧ constr 1 50 (Record.status r) = true.

(** Only whitespace. *)
Definition blank (whitespace : Ascii.ascii → bool) (s : string) : Prop :=
  Forall (λ a, whitespace a = true) (String.list_ascii_of_string s).

(** Some row other than [rec_id] is active under [title]. *)
Definition active_elsewhere (db : Session) (title : string) (rec_id : Z) : Prop :=
  ∃ j r, db !! j = Some r ∧ Record.id r ≠ rec_id
         ∧ Record.title r = title ∧ Record.status r = "active".

(** Some row is active under [title]. *)
Definition active_somewhere (db : Session) (title : string) : Prop :=
  ∃ j r, db !! j = Some r ∧ Record.title r = title ∧ Record.status r = "active".


(** [Null] read as [Omitted]. *)
Definition drop_null {A} (f : Field A) : Field A :=
  match f with
  | Null => Omitted
  | _ => f
  end.

(** The row [create_record] adds and returns. *)
Definition inserted (db : Session) (clk : Clock) (payload : RecordCreate.t) : Record.t :=
  Record.mk (next_id db) (RecordCreate.title payload)
    (RecordCreate.description payload)
    (str_or (RecordCreate.status payload) "active") (func_now clk) (utcnow clk).

(** The row [update_record] writes back and returns. *)
Definition updated (clk : Clock) (changes : RecordUpdate.t) (rec : Record.t) : Record.t :=
  services.flush clk rec (services.apply_changes changes rec).

(** ** A worked session

    Two active records "A" and "B", a second active "A" that is refused,
    then an archived "A" and an archived "C" created within the same
    second. *)

Definition at_time (t : Z) : Clock := mkClock t (t + 1).

Definition post_A : RecordCreate.t := RecordCreate.mk "A" None "active".
Definition post_B : RecordCreate.t := RecordCreate.mk "B" (Some "second") "active".
Definition post_A_archived : RecordCreate.t := RecordCreate.mk "A" None "archived".
Definition post_C_archived : RecordCreate.t := RecordCreate.mk "C" None "archived".

Definition demo_requests : list Request :=
  [ POST_records (at_time 100) post_A;
    POST_records (at_time 200) post_B;
    POST_records (at_time 300) post_A;
    POST_records (at_time 400) post_A_archived;
    POST_records (at_time 400) post_C_archived ].

Definition demo_db : Session := serve demo_requests ∅.

Definition demo_A : Record.t := Record.mk 1 "A" None "active" 100 101.
Definition demo_B : Record.t := Record.mk 2 "B" (Some "second") "active" 200 201.
Definition demo_A_archived : Record.t := Record.mk 3 "A" None "archived" 400 401.
Definition demo_C : Record.t := Record.mk 4 "C" None "archived" 400 401.

Definition rename_to_B : RecordUpdate.t := RecordUpdate.mk (Given "B") Omitted Omitted.
Definition archive : RecordUpdate.t := RecordUpdate.mk Omitted Null (Given "archived").
Definition rename_to_C : RecordUpdate.t := RecordUpdate.mk (Given "C") Omitted Omitted.
Definition keep_title : RecordUpdate.t :=
  RecordUpdate.mk (Given "A") (Given "first") Omitted.
Definition nothing : RecordUpdate.t := RecordUpdate.mk Omitted Omitted Omitted.

(** The smallest identifier above the signed 64-bit range. *)
Definition too_large : Z := 2 ^ 63.

(** A body with padded strings and no status. *)
Definition body_A : Body.t := Body.mk (Given "  A ") (Given "first") Omitted.

(** * Lemmas on the session *)

Section session.
Implicit Types (db : Session) (r rec : Record.t) (i j : Z).

Lemma elem_of_rows db r : r ∈ rows db ↔ ∃ i, db !! i = Some r.
Proof.
  unfold rows. rewrite list_elem_of_fmap. split.
  - intros [[i r'] [-> Hin]]. exists i. by apply elem_of_map_to_list.
  - intros [i Hi]. exists (i, r). split; [done|]. by apply elem_of_map_to_list.
Qed.

Lemma truthy_scalar_filter (P : Record.t → Prop) `{!∀ r, Decision (P r)}
    (l : list Record.t) :
  truthy (scalar (filter P l)) = true ↔ ∃ r, r ∈ l ∧ P r.
Proof.
  unfold scalar. split.
  - destruct (filter P l) as [|r l'] eqn:E; [done|]. intros _.
    assert (r ∈ filter P l) as Hr by (rewrite E; left).
    apply list_elem_of_filter in Hr as [HP Hr]. by exists r.
  - intros (r & Hr & HP).
    assert (r ∈ filter P l) as Hin by (apply list_elem_of_filter; done).
    destruct (filter P l); [by apply elem_of_nil in Hin | done].
Qed.

Lemma foldr_max_ge (l : list Z) k : k ∈ l → k ≤ foldr Z.max 0 l.
Proof.
  induction l as [|x l IH]; [by intros ?%elem_of_nil|].
  intros [->|Hk]%elem_of_cons; simpl; [lia|]. specialize (IH Hk). lia.
Qed.

Lemma lookup_le_max_id db i r : db !! i = Some r → i ≤ max_id db.
Proof.
  intros Hi. apply foldr_max_ge, list_elem_of_fmap.
  exists (i, r). split; [done|]. by apply elem_of_map_to_list.
Qed.

Lemma next_id_fresh db : db !! next_id db = None.
Proof.
  destruct (db !! next_id db) as [r|] eqn:E; [|done].
  apply lookup_le_max_id in E. unfold next_id in E. lia.
Qed.

Lemma select_active_title_spec db t :
  truthy (scalar (services.select_active_title db t)) = true
  ↔ active_somewhere db t.
Proof.
  unfold services.select_active_title, active_somewhere.
  rewrite truthy_scalar_filter. setoid_rewrite elem_of_rows. split.
  - intros (r & [j Hj] & Ht & Hs). by exists j, r.
  - intros (j & r & Hj & Ht & Hs). exists r. eauto.
Qed.

Lemma select_other_active_title_spec db t k :
  truthy (scalar (services.select_other_active_title db t k)) = true
  ↔ active_elsewhere db t k.
Proof.
  unfold services.select_other_active_title, active_elsewhere.
  rewrite truthy_scalar_filter. setoid_rewrite elem_of_rows. split.
  - intros (r & [j Hj] & Ht & Hs & Hk). by exists j, r.
  - intros (j & r & Hj & Hk & Ht & Hs). exists r. eauto.
Qed.

End session.

(** * Lemmas on the service functions *)

Section services_facts.
Implicit Types (db : Session) (r rec : Record.t) (i j : Z)
  (payload : RecordCreate.t) (changes : RecordUpdate.t) (clk : Clock).

Lemma str_or_valid payload :
  RecordCreate.valid payload = true →
  str_or (RecordCreate.status payload) "active" = RecordCreate.status payload.
Proof.
  unfold RecordCreate.valid, constr, str_or.
  intros [_ Hs%bool_decide_eq_true]%andb_true_iff.
  case_decide as E; [|done]. rewrite E in Hs. simpl in Hs. lia.
Qed.

Lemma create_record_cases db clk payload :
  (RecordCreate.status payload = "active"
   ∧ active_somewhere db (RecordCreate.title payload)
   ∧ services.create_record db clk payload
     = (inl (ValueError "A record with this title already exists in active status."), db))
  ∨ (¬ (RecordCreate.status payload = "active"
        ∧ active_somewhere db (RecordCreate.title payload))
     ∧ services.create_record db clk payload
       = (inr (inserted db clk payload), <[next_id db := inserted db clk payload]> db)).
Proof.
  unfold services.create_record.
  destruct (bool_decide (RecordCreate.status payload = "active")) eqn:Hs;
    [apply bool_decide_eq_true in Hs | apply bool_decide_eq_false in Hs]; simpl.
  - destruct (truthy _) eqn:Hq.
    + left. by apply select_active_title_spec in Hq.
    + right. split; [|done]. intros [_ Hx%select_active_title_spec]. congruence.
  - right. split; [|done]. by intros [? _].
Qed.

Lemma apply_changes_id changes rec :
  Record.id (services.apply_changes changes rec) = Record.id rec.
Proof. unfold services.apply_changes. by repeat case_match. Qed.

Lemma apply_changes_created_at changes rec :
  Record.created_at (services.apply_changes changes rec) = Record.created_at rec.
Proof. unfold services.apply_changes. by repeat case_match. Qed.

Lemma apply_changes_updated_at changes rec :
  Record.updated_at (services.apply_changes changes rec) = Record.updated_at rec.
Proof. unfold services.apply_changes. by repeat case_match. Qed.

Lemma apply_changes_title changes rec :
  Record.title (services.apply_changes changes rec) = services.new_title changes rec.
Proof. unfold services.apply_changes, services.new_title. by repeat case_match. Qed.

Lemma apply_changes_status changes rec :
  Record.status (services.apply_changes changes rec) = services.new_status changes rec.
Proof. unfold services.apply_changes, services.new_status. by repeat case_match. Qed.

Lemma apply_changes_description changes rec :
  Record.description (services.apply_changes changes rec)
  = match attr (RecordUpdate.description changes) with
    | Some d => Some d
    | None => Record.description rec
    end.
Proof. unfold services.apply_changes. by repeat case_match. Qed.

(** [flush] touches [updated_at] only. *)
Lemma flush_columns clk loaded rec :
  let rec' := services.flush clk loaded rec in
  Record.id rec' = Record.id rec ∧ Record.title rec' = Record.title rec
  ∧ Record.description rec' = Record.description rec
  ∧ Record.status rec' = Record.status rec
  ∧ Record.created_at rec' = Record.created_at rec.
Proof. unfold services.flush. case_decide; by subst. Qed.

Lemma flush_updated_at clk loaded rec :
  Record.updated_at (services.flush clk loaded rec)
  = if decide (rec = loaded) then Record.updated_at loaded else utcnow clk.
Proof. unfold services.flush. by case_decide. Qed.

Lemma updated_columns clk changes rec :
  let rec' := updated clk changes rec in
  Record.id rec' = Record.id rec
  ∧ Record.title rec' = services.new_title changes rec
  ∧ Record.description rec'
    = match attr (RecordUpdate.description changes) with
      | Some d => Some d
      | None => Record.description rec
      end
  ∧ Record.status rec' = services.new_status changes rec
  ∧ Record.created_at rec' = Record.created_at rec.
Proof.
  unfold updated.
  destruct (flush_columns clk rec (services.apply_changes changes rec))
    as (-> & -> & -> & -> & ->).
  by rewrite apply_changes_id, apply_changes_title, apply_changes_description,
    apply_changes_status, apply_changes_created_at.
Qed.

Lemma get_stored db i rec : db !! i = Some rec → get db i = inr (Some rec).
Proof. intros H. unfold get. by rewrite H. Qed.

Lemma get_missing db i : db !! i = None → in_int64 i = true → get db i = inr None.
Proof. intros H Hi. unfold get. by rewrite H, Hi. Qed.

Lemma get_overflow db i :
  db !! i = None → in_int64 i = false →
  get db i = inl (OverflowError "Python int too large to convert to SQLite INTEGER").
Proof. intros H Hi. unfold get. by rewrite H, Hi. Qed.

Lemma update_record_missing db clk i changes :
  db !! i = None → in_int64 i = true →
  services.update_record db clk i changes = (inl (LookupError "Record not found"), db).
Proof. intros H Hi. unfold services.update_record. by rewrite get_missing. Qed.

Lemma update_record_overflow db clk i changes :
  db !! i = None → in_int64 i = false →
  services.update_record db clk i changes
  = (inl (OverflowError "Python int too large to convert to SQLite INTEGER"), db).
Proof. intros H Hi. unfold services.update_record. by rewrite get_overflow. Qed.

(** Whatever is raised for an id the table does not hold, nothing is
    written and it is not the conflict error. *)
Lemma update_record_absent db clk i changes :
  db !! i = None →
  ∃ e, services.update_record db clk i changes = (inl e, db)
       ∧ ∀ msg, e ≠ ValueError msg.
Proof.
  intros H. destruct (in_int64 i) eqn:Hi.
  - rewrite update_record_missing by done. by eexists.
  - rewrite update_record_overflow by done. by eexists.
Qed.



Lemma update_record_cases db clk i changes rec :
  db !! i = Some rec →
  (services.new_status changes rec = "active"
   ∧ active_elsewhere db (services.new_title changes rec) (Record.id rec)
   ∧ services.update_record db clk i changes
     = (inl (ValueError "Another active record with this title already exists."), db))
  ∨ (¬ (services.new_status changes rec = "active"
        ∧ active_elsewhere db (services.new_title changes rec) (Record.id rec))
     ∧ services.update_record db clk i changes
       = (inr (updated clk changes rec), <[i := updated clk changes rec]> db)).
Proof.
  intros H. unfold services.update_record. rewrite (get_stored _ _ _ H).
  destruct (bool_decide (services.new_status changes rec = "active")) eqn:Hs;
    [apply bool_decide_eq_true in Hs | apply bool_decide_eq_false in Hs]; simpl.
  - destruct (truthy _) eqn:Hq.
    + left. by apply select_other_active_title_spec in Hq.
    + right. split; [|done].
      intros [_ Hx%select_other_active_title_spec]. congruence.
  - right. split; [|done]. by intros [? _].
Qed.

Lemma delete_record_cases db i :
  services.delete_record db i
  = match db !! i with
    | Some _ => (inr (true, Some i), delete i db)
    | None =>
        if in_int64 i then (inr (false, None), db)
        else (inl (OverflowError "Python int too large to convert to SQLite INTEGER"),
              db)
    end.
Proof.
  unfold services.delete_record, get.
  destruct (db !! i); [done|]. by destruct (in_int64 i).
Qed.

(** Deleting an id the table does not hold writes nothing. *)
Lemma delete_record_absent db i :
  db !! i = None → (services.delete_record db i).2 = db.
Proof. intros H. rewrite delete_record_cases, H. by destruct (in_int64 i). Qed.

End services_facts.

(** * The invariants and the operations *)

Section invariants.
Implicit Types (db : Session) (r rec : Record.t) (i j : Z)
  (payload : RecordCreate.t) (changes : RecordUpdate.t) (clk : Clock).

Lemma keyed_by_id_empty : keyed_by_id (∅ : Session).
Proof. intros i r H. by rewrite lookup_empty in H. Qed.

Lemma unique_active_empty : unique_active (∅ : Session).
Proof. intros i j r1 r2 H. by rewrite lookup_empty in H. Qed.

Lemma keyed_by_id_insert db i r :
  keyed_by_id db → Record.id r = i → keyed_by_id (<[i := r]> db).
Proof.
  intros Hk Hi j r'. rewrite lookup_insert. case_decide; [|apply Hk].
  intros [= <-]. by subst.
Qed.

Lemma keyed_by_id_delete db i : keyed_by_id db → keyed_by_id (delete i db).
Proof.
  intros Hk j r'. rewrite lookup_delete. case_decide; [done|apply Hk].
Qed.

(** Writing [r] under [i] keeps the active titles distinct as long as [r],
    if active, shares its title with no active row stored elsewhere. *)
Lemma unique_active_insert db i r :
  unique_active db →
  (Record.status r = "active" →
   ∀ j r', db !! j = Some r' → j ≠ i → Record.status r' = "active" →
           Record.title r' ≠ Record.title r) →
  unique_active (<[i := r]> db).
Proof.
  intros Hu Hr j1 j2 r1 r2. rewrite !lookup_insert.
  destruct (decide (i = j1)) as [E1|N1], (decide (i = j2)) as [E2|N2].
  - congruence.
  - intros [= <-] H2 S1 S2 Ht. exfalso.
    by apply (Hr S1 j2 r2 H2 (not_eq_sym N2) S2).
  - intros H1 [= <-] S1 S2 Ht. exfalso.
    by apply (Hr S2 j1 r1 H1 (not_eq_sym N1) S1).
  - apply Hu.
Qed.

Lemma unique_active_delete db i : unique_active db → unique_active (delete i db).
Proof.
  intros Hu j1 j2 r1 r2. rewrite !lookup_delete.
  repeat case_decide; try done. apply Hu.
Qed.

Lemma create_record_preserves db clk payload :
  RecordCreate.valid payload = true →
  keyed_by_id db → unique_active db →
  keyed_by_id (services.create_record db clk payload).2
  ∧ unique_active (services.create_record db clk payload).2.
Proof.
  intros Hv Hk Hu.
  destruct (create_record_cases db clk payload) as [(_ & _ & ->)|[Hno ->]];
    [done|]. simpl. split.
  - by apply keyed_by_id_insert.
  - apply unique_active_insert; [done|]. unfold inserted. simpl.
    rewrite (str_or_valid _ Hv). intros Hs j r' Hj _ Hs' Ht.
    apply Hno. split; [done|]. by exists j, r'.
Qed.

Lemma update_record_preserves db clk i changes :
  keyed_by_id db → unique_active db →
  keyed_by_id (services.update_record db clk i changes).2
  ∧ unique_active (services.update_record db clk i changes).2.
Proof.
  intros Hk Hu. destruct (db !! i) as [rec|] eqn:Hi.
  2: { by destruct (update_record_absent db clk i changes Hi) as (e & -> & _). }
  destruct (update_record_cases db clk i changes rec Hi)
    as [(_ & _ & ->)|[Hno ->]]; [done|]. simpl.
  destruct (updated_columns clk changes rec) as (Eid & Et & _ & Es & _).
  split.
  - apply keyed_by_id_insert; [done|]. rewrite Eid. by apply Hk.
  - apply unique_active_insert; [done|]. rewrite Et, Es.
    intros Hs j r' Hj Hne Hs' Ht. apply Hno. split; [done|].
    exists j, r'. repeat split; try done.
    rewrite (Hk _ _ Hj), (Hk _ _ Hi). done.
Qed.

Lemma delete_record_preserves db i :
  keyed_by_id db → unique_active db →
  keyed_by_id (services.delete_record db i).2
  ∧ unique_active (services.delete_record db i).2.
Proof.
  intros Hk Hu. destruct (db !! i) eqn:Hi.
  2: { by rewrite delete_record_absent. }
  rewrite delete_record_cases, Hi.
  simpl. split; [by apply keyed_by_id_delete | by apply unique_active_delete].
Qed.

(** The handlers leave the table the service function left. *)
Lemma main_create_record_session clk payload db :
  (main.create_record clk payload db).2 = (services.create_record db clk payload).2.
Proof.
  unfold main.create_record.
  by destruct (services.create_record db clk payload) as [[[?|?|?]|?] ?].
Qed.

Lemma main_update_record_session clk i changes db :
  (main.update_record clk i changes db).2
  = (services.update_record db clk i changes).2.
Proof.
  unfold main.update_record.
  by destruct (services.update_record db clk i changes) as [[[?|?|?]|?] ?].
Qed.

Lemma main_delete_record_session i db :
  (main.delete_record i db).2 = (services.delete_record db i).2.
Proof.
  unfold main.delete_record.
  by destruct (services.delete_record db i) as [[?|[[] ?]] ?].
Qed.

Lemma handle_preserves req db :
  validated req = true →
  keyed_by_id db → unique_active db →
  keyed_by_id (handle req db).2 ∧ unique_active (handle req db).2.
Proof.
  intros Hv Hk Hu. destruct req as [clk payload|clk i changes|i]; simpl.
  - rewrite main_create_record_session. by apply create_record_preserves.
  - rewrite main_update_record_session. by apply update_record_preserves.
  - rewrite main_delete_record_session. by apply delete_record_preserves.
Qed.

Lemma serve_preserves reqs db :
  Forall (λ req, validated req = true) reqs →
  keyed_by_id db → unique_active db →
  keyed_by_id (serve reqs db) ∧ unique_active (serve reqs db).
Proof.
  intros Hv. revert db. induction Hv as [|req reqs Hreq _ IH]; intros db Hk Hu.
  - done.
  - destruct (handle_preserves req db Hreq Hk Hu) as [Hk' Hu'].
    simpl. by apply IH.
Qed.

End invariants.

(** * The record lifecycle *)

(** C1. Starting from the empty table, after any sequence of create, update
    and delete requests served one after the other, no two records with
    status "active" have the same title: the empty table satisfies the
    invariant, every request preserves it (together with the primary-key
    property of the table), and so it holds after every sequence. *)
Theorem active_titles_unique :
  unique_active (∅ : Session)
  ∧ (∀ req db, validated req = true → keyed_by_id db → unique_active db →
       keyed_by_id (handle req db).2 ∧ unique_active (handle req db).2)
  ∧ (∀ reqs, Forall (λ req, validated req = true) reqs →
       keyed_by_id (serve reqs ∅) ∧ unique_active (serve reqs ∅)).
Proof.
  split; [apply unique_active_empty|]. split.
  - intros req db. apply handle_preserves.
  - intros reqs Hv.
    apply serve_preserves; [done|apply keyed_by_id_empty|apply unique_active_empty].
Qed.

Lemma active_titles_unique_witness :
  Forall (λ req, validated req = true) demo_requests
  ∧ unique_active demo_db
  ∧ unique_active (handle (PUT_records (at_time 500) 3 rename_to_C) demo_db).2.
Proof.
  assert (Forall (λ req, validated req = true) demo_requests) as Hv
    by (repeat constructor).
  destruct active_titles_unique as (_ & Hstep & Hserve).
  destruct (Hserve demo_requests Hv) as [Hk Hu].
  split; [exact Hv|]. split; [exact Hu|].
  exact (proj2 (Hstep (PUT_records (at_time 500) 3 rename_to_C) demo_db
                  eq_refl Hk Hu)).
Defined.







#[local] Instance created_at_desc_total : Total services.created_at_desc.
Proof. intros a b. unfold services.created_at_desc. lia. Qed.

#[local] Instance created_at_desc_trans : Transitive services.created_at_desc.
Proof. intros a b c. unfold services.created_at_desc. lia. Qed.

Lemma list_records_unfiltered (db : Session) (status : option string) :
  status = None ∨ status = Some "" →
  services.list_records db status = merge_sort services.created_at_desc (rows db).
Proof. by intros [->| ->]. Qed.

Lemma list_records_filter (db : Session) (s : string) :
  s ≠ "" →
  services.list_records db (Some s)
  = merge_sort services.created_at_desc (filter (λ r, Record.status r = s) (rows db)).
Proof. intros Hs. unfold services.list_records. by case_decide. Qed.

(** C5. Listing with a (non-empty) status filter returns exactly the stored
    records whose status equals the filter; listing with no filter, or with
    the empty string as filter, returns every stored record; in all cases a
    record created later never comes after one created earlier. *)
Theorem list_records_filtered_sorted (db : Session) :
  (∀ s, s ≠ "" →
     services.list_records db (Some s) ≡ₚ filter (λ r, Record.status r = s) (rows db)
     ∧ ∀ r, r ∈ services.list_records db (Some s)
            ↔ (∃ i, db !! i = Some r) ∧ Record.status r = s)
  ∧ (∀ status, status = None ∨ status = Some "" →
       services.list_records db status ≡ₚ rows db
       ∧ length (services.list_records db status) = size db
       ∧ ∀ r, r ∈ services.list_records db status ↔ ∃ i, db !! i = Some r)
  ∧ (∀ status, StronglySorted services.created_at_desc (services.list_records db status))
  ∧ (∀ status (before after : list Record.t) r1 r2,
       services.list_records db status = (before ++ r1 :: r2 :: after)%list →
       Record.created_at r2 ≤ Record.created_at r1).
Proof.
  assert (∀ status,
    StronglySorted services.created_at_desc (services.list_records db status))
    as Hsorted.
  { intros status. unfold services.list_records.
    apply StronglySorted_merge_sort; apply _. }
  split; [|split; [|split]].
  - intros s Hs. rewrite list_records_filter by done.
    split; [apply merge_sort_Permutation|].
    intros r. rewrite merge_sort_Permutation, list_elem_of_filter, elem_of_rows.
    tauto.
  - intros status Hst. rewrite list_records_unfiltered by done.
    split; [apply merge_sort_Permutation|]. split.
    + rewrite merge_sort_Permutation. unfold rows.
      by rewrite length_fmap, length_map_to_list.
    + intros r. by rewrite merge_sort_Permutation, elem_of_rows.
  - exact Hsorted.
  - intros status before after r1 r2 E. specialize (Hsorted status).
    rewrite E in Hsorted. apply StronglySorted_app_1_r in Hsorted.
    apply StronglySorted_cons in Hsorted as [Hall _].
    apply Forall_cons in Hall as [H _]. exact H.
Qed.

Lemma list_records_filtered_sorted_witness :
  services.list_records demo_db (Some "active") ≡ₚ [demo_A; demo_B]
  ∧ length (services.list_records demo_db (Some "")) = 4%nat
  ∧ services.list_records demo_db (Some "active") = [demo_B; demo_A]
  ∧ Record.created_at demo_A ≤ Record.created_at demo_B.
Proof.
  destruct (list_records_filtered_sorted demo_db) as (Hf & Hall & _ & Hadj).
  split; [|split; [|split]].
  - destruct (Hf "active") as [-> _]; [done|]. vm_compute. apply perm_swap.
  - by destruct (Hall (Some "")) as (_ & -> & _); [by right|].
  - by vm_compute.
  - apply (Hadj None [demo_A_archived; demo_C] [] demo_B demo_A). by vm_compute.
Defined.

(** C6. A successful create followed by a get with the id of the created
    record returns that very record: all six fields agree. *)
Theorem create_then_get (db db' : Session) (clk : Clock)
    (payload : RecordCreate.t) (rec : Record.t) :
  services.create_record db clk payload = (inr rec, db') →
  services.get_record db' (Record.id rec) = inr (Some rec)
  ∧ main.get_record (Record.id rec) db' = (main.mkResponse 200 (main.JSONRecord rec), db').
Proof.
  intros E.
  assert (db' !! Record.id rec = Some rec) as Hget.
  { destruct (create_record_cases db clk payload) as [(_ & _ & E')|[_ E']];
      rewrite E' in E; [done|].
    injection E as <- <-. apply lookup_insert_eq. }
  split; [by apply get_stored|].
  unfold main.get_record, services.get_record. by rewrite (get_stored _ _ _ Hget).
Qed.

Lemma create_then_get_witness :
  services.get_record (<[5 := inserted demo_db (at_time 500) post_A_archived]> demo_db) 5
  = inr (Some (Record.mk 5 "A" None "archived" 500 501)).
Proof.
  exact (proj1 (create_then_get demo_db
                  (<[5 := inserted demo_db (at_time 500) post_A_archived]> demo_db)
                  (at_time 500) post_A_archived
                  (Record.mk 5 "A" None "archived" 500 501) eq_refl)).
Defined.

(** C7 does not hold for every absent id: an id above the signed 64-bit
    range is stored in no table, yet an update of it does not raise the
    not-found error; the driver raises [OverflowError], which the route
    does not catch, and the answer is 500. *)
Lemma update_unknown_id_not_found_counterexample :
  ¬ (∀ (db : Session) (clk : Clock) (i : Z) (changes : RecordUpdate.t),
       db !! i = None →
       (∃ msg, services.update_record db clk i changes = (inl (LookupError msg), db))
       ∧ main.status_code (main.update_record clk i changes db).1 = 404).
Proof.
  intros H.
  destruct (H demo_db (at_time 500) too_large rename_to_B eq_refl) as [_ Hcode].
  vm_compute in Hcode. discriminate Hcode.
Qed.

(** C7. An update of an id within the signed 64-bit range that is not
    stored raises the not-found error whatever the payload holds, the route
    answers 404, and the table is unchanged. *)
Theorem update_unknown_id_not_found (db : Session) (clk : Clock) (i : Z)
    (changes : RecordUpdate.t) :
  db !! i = None → in_int64 i = true →
  (∃ msg, services.update_record db clk i changes = (inl (LookupError msg), db))
  ∧ main.update_record clk i changes db
    = (main.HTTPException main.HTTP_404_NOT_FOUND "Record not found", db)
  ∧ main.status_code (main.update_record clk i changes db).1 = 404.
Proof.
  intros Hi Hr. pose proof (update_record_missing db clk i changes Hi Hr) as E.
  split; [by eexists|].
  unfold main.update_record. by rewrite E.
Qed.

Lemma update_unknown_id_not_found_witness :
  main.update_record (at_time 500) 7 rename_to_B demo_db
  = (main.HTTPException main.HTTP_404_NOT_FOUND "Record not found", demo_db).
Proof.
  by destruct (update_unknown_id_not_found demo_db (at_time 500) 7 rename_to_B
                 eq_refl eq_refl) as (_ & -> & _).
Defined.

(** C8 does not hold for every absent id: deleting an id above the signed
    64-bit range, which no table stores, is not answered with 404; the
    driver raises [OverflowError], the route has no handler at all, and the
    answer is 500. *)
Lemma delete_record_once_counterexample :
  ¬ (∀ (db : Session) (i : Z),
       db !! i = None →
       main.delete_record i db
       = (main.HTTPException main.HTTP_404_NOT_FOUND "Record not found", db)).
Proof.
  intros H. specialize (H demo_db too_large eq_refl).
  apply (f_equal (λ out, main.status_code out.1)) in H.
  vm_compute in H. discriminate H.
Qed.

(** C8. Deleting a stored id removes that record and nothing else and
    reports success (204, no content); deleting an id within the signed
    64-bit range that is not stored, in particular the same id a second
    time, reports not-found (404) and leaves the table unchanged. *)
Theorem delete_record_once (db : Session) (i : Z) :
  (∀ rec, db !! i = Some rec →
     services.delete_record db i = (inr (true, Some i), delete i db)
     ∧ main.delete_record i db
       = (main.mkResponse main.HTTP_204_NO_CONTENT main.NoContent, delete i db)
     ∧ delete i db !! i = None
     ∧ (∀ j, j ≠ i → delete i db !! j = db !! j)
     ∧ (in_int64 i = true →
        services.get_record (delete i db) i = inr None
        ∧ main.delete_record i (main.delete_record i db).2
          = (main.HTTPException main.HTTP_404_NOT_FOUND "Record not found",
             (main.delete_record i db).2)))
  ∧ (db !! i = None → in_int64 i = true →
     services.delete_record db i = (inr (false, None), db)
     ∧ main.delete_record i db
       = (main.HTTPException main.HTTP_404_NOT_FOUND "Record not found", db)).
Proof.
  assert (∀ db', db' !! i = None → in_int64 i = true →
    services.delete_record db' i = (inr (false, None), db')
    ∧ main.delete_record i db'
      = (main.HTTPException main.HTTP_404_NOT_FOUND "Record not found", db'))
    as Habsent.
  { intros db' Hi Hr. unfold main.delete_record.
    rewrite delete_record_cases, Hi, Hr. done. }
  split; [|apply Habsent].
  intros rec Hi.
  assert (main.delete_record i db
          = (main.mkResponse main.HTTP_204_NO_CONTENT main.NoContent, delete i db))
    as Emain.
  { unfold main.delete_record. by rewrite delete_record_cases, Hi. }
  split; [by rewrite delete_record_cases, Hi|]. split; [exact Emain|].
  split; [apply lookup_delete_eq|].
  split; [intros j Hj; by apply lookup_delete_ne|].
  intros Hr. split.
  - apply get_missing; [apply lookup_delete_eq|done].
  - rewrite Emain. simpl. by apply Habsent; [apply lookup_delete_eq|].
Qed.

Lemma delete_record_once_witness :
  main.delete_record 3 demo_db
  = (main.mkResponse 204 main.NoContent, delete 3 demo_db)
  ∧ main.status_code (main.delete_record 3 (main.delete_record 3 demo_db).2).1 = 404
  ∧ main.status_code (main.delete_record 7 demo_db).1 = 404.
Proof.
  destruct (delete_record_once demo_db 3) as [Hpresent _].
  destruct (Hpresent demo_A_archived eq_refl) as (_ & E1 & _ & _ & Hagain).
  destruct (Hagain eq_refl) as [_ E2].
  destruct (delete_record_once demo_db 7) as [_ Habsent].
  destruct (Habsent eq_refl eq_refl) as [_ E3].
  split; [exact E1|]. by rewrite E2, E3.
Defined.

(** An update whose payload leaves every column as it was writes nothing:
    the row, [updated_at] included, stays as it was loaded. *)
Remark update_record_without_change (db : Session) (clk : Clock) (i : Z)
    (changes : RecordUpdate.t) (rec : Record.t) :
  db !! i = Some rec →
  services.apply_changes changes rec = rec →
  ¬ (Record.status rec = "active"
     ∧ active_elsewhere db (Record.title rec) (Record.id rec)) →
  services.update_record db clk i changes = (inr rec, db).
Proof.
  intros Hi Esame Hno.
  assert (updated clk changes rec = rec) as Eupd.
  { unfold updated, services.flush. by rewrite decide_True. }
  destruct (update_record_cases db clk i changes rec Hi)
    as [(Hs & Ha & _)|[_ ->]].
  - exfalso. apply Hno.
    rewrite <- apply_changes_status, <- apply_changes_title in *.
    by rewrite Esame in Hs, Ha.
  - by rewrite Eupd, insert_id.
Qed.

(** C9 does not hold for every update: one that provides no field is
    answered with success and returns the record with the [updated_at] it
    had, not with the clock's reading at the update. *)
Lemma timestamps_frame_counterexample :
  ¬ (∀ (db db' : Session) (clk : Clock) (i : Z) (changes : RecordUpdate.t)
       (rec' : Record.t),
       services.update_record db clk i changes = (inr rec', db') →
       Record.updated_at rec' = utcnow clk).
Proof.
  intros H.
  specialize (H demo_db demo_db (at_time 500) 1 nothing demo_A).
  assert (services.update_record demo_db (at_time 500) 1 nothing
          = (inr demo_A, demo_db)) as E by (by vm_compute).
  specialize (H E). vm_compute in H. discriminate H.
Qed.

(** C9. A record gets its id, created_at and updated_at when it is created.
    No update, of this or of any other record, successful or not, changes
    the id or created_at of a stored record.  An update that changes the
    title, description or status of a record sets its updated_at to the
    clock's reading at that update; an update that changes none of the
    three leaves updated_at as it was. *)
Theorem timestamps_frame (db : Session) (clk : Clock) :
  (∀ payload rec db',
     services.create_record db clk payload = (inr rec, db') →
     Record.id rec = next_id db
     ∧ db !! Record.id rec = None
     ∧ Record.created_at rec = func_now clk
     ∧ Record.updated_at rec = utcnow clk
     ∧ db' !! Record.id rec = Some rec
     ∧ ∀ j r, db !! j = Some r → db' !! j = Some r)
  ∧ (∀ i changes j r,
       db !! j = Some r →
       ∃ r', (services.update_record db clk i changes).2 !! j = Some r'
             ∧ Record.id r' = Record.id r
             ∧ Record.created_at r' = Record.created_at r)
  ∧ (∀ i changes rec rec' db',
       db !! i = Some rec →
       services.update_record db clk i changes = (inr rec', db') →
       db' !! i = Some rec'
       ∧ Record.id rec' = Record.id rec
       ∧ Record.created_at rec' = Record.created_at rec
       ∧ ((Record.title rec', Record.description rec', Record.status rec')
          ≠ (Record.title rec, Record.description rec, Record.status rec) →
          Record.updated_at rec' = utcnow clk)
       ∧ ((Record.title rec', Record.description rec', Record.status rec')
          = (Record.title rec, Record.description rec, Record.status rec) →
          Record.updated_at rec' = Record.updated_at rec)).
Proof.
  split; [|split].
  - intros payload rec db' E.
    destruct (create_record_cases db clk payload) as [(_ & _ & E')|[_ E']];
      rewrite E' in E; [done|].
    injection E as <- <-. simpl.
    repeat split; [apply next_id_fresh|apply lookup_insert_eq|].
    intros j r Hj. rewrite lookup_insert_ne; [done|].
    intros <-. by rewrite next_id_fresh in Hj.
  - intros i changes j r Hj. destruct (db !! i) as [rec|] eqn:Hi.
    2: { destruct (update_record_absent db clk i changes Hi) as (e & -> & _).
         by exists r. }
    destruct (update_record_cases db clk i changes rec Hi)
      as [(_ & _ & ->)|[_ ->]]; simpl; [by exists r|].
    destruct (decide (i = j)) as [->|Hne].
    + rewrite lookup_insert_eq. eexists. split; [done|].
      destruct (updated_columns clk changes rec) as (-> & _ & _ & _ & ->).
      by simplify_eq.
    + rewrite lookup_insert_ne by done. by exists r.
  - intros i changes rec rec' db' Hi E.
    destruct (update_record_cases db clk i changes rec Hi)
      as [(_ & _ & E')|[_ E']]; rewrite E' in E; [done|].
    injection E as <- <-.
    destruct (updated_columns clk changes rec) as (Eid & _ & _ & _ & Ec).
    split; [apply lookup_insert_eq|]. split; [exact Eid|]. split; [exact Ec|].
    unfold updated in *. rewrite flush_updated_at. split.
    + intros Hchanged. case_decide as Esame; [|done].
      exfalso. apply Hchanged. unfold services.flush.
      rewrite decide_True by done. done.
    + intros Hsame. case_decide as Esame; [done|].
      exfalso. apply Esame.
      destruct (flush_columns clk rec (services.apply_changes changes rec))
        as (_ & Ht & Hd & Hs & _).
      rewrite Ht, Hd, Hs in Hsame. injection Hsame as Ht' Hd' Hs'.
      pose proof (apply_changes_id changes rec) as Hid.
      pose proof (apply_changes_created_at changes rec) as Hc.
      pose proof (apply_changes_updated_at changes rec) as Hu.
      destruct (services.apply_changes changes rec), rec. simpl in *.
      by subst.
Qed.

Lemma timestamps_frame_witness :
  (∃ rec',
     (services.update_record demo_db (at_time 500) 1 keep_title).2 !! 1 = Some rec'
     ∧ Record.id rec' = 1 ∧ Record.created_at rec' = 100
     ∧ Record.updated_at rec' = 501)
  ∧ (∃ rec',
       (services.update_record demo_db (at_time 500) 1 keep_title).2 !! 2 = Some rec'
       ∧ Record.id rec' = 2 ∧ Record.created_at rec' = 200)
  ∧ (∃ rec,
       (services.create_record demo_db (at_time 500) post_A_archived).1 = inr rec
       ∧ Record.id rec = 5 ∧ Record.created_at rec = 500
       ∧ Record.updated_at rec = 501)
  ∧ Record.updated_at demo_A = 101.
Proof.
  destruct (timestamps_frame demo_db (at_time 500)) as (Hnew & Hframe & Hupd).
  split; [|split; [|split]].
  - destruct (Hupd 1 keep_title demo_A
                (Record.mk 1 "A" (Some "first") "active" 100 501)
                (<[1 := Record.mk 1 "A" (Some "first") "active" 100 501]> demo_db)
                eq_refl eq_refl) as (_ & Hid & Hc & Hu & _).
    eexists. split; [reflexivity|]. split; [exact Hid|]. split; [exact Hc|].
    apply Hu. by vm_compute.
  - exact (Hframe 1 keep_title 2 demo_B eq_refl).
  - destruct (Hnew post_A_archived (inserted demo_db (at_time 500) post_A_archived)
                (<[5 := inserted demo_db (at_time 500) post_A_archived]> demo_db)
                eq_refl) as (Hid & _ & Hc & Hu & _).
    eexists. split; [reflexivity|]. split; [exact Hid|]. by split.
  - assert (services.update_record demo_db (at_time 500) 1 nothing
            = (inr demo_A, demo_db)) as E by (by vm_compute).
    destruct (Hupd 1 nothing demo_A demo_A demo_db eq_refl E) as (_ & _ & _ & _ & Hkeep).
    by apply Hkeep.
Defined.

(** C10. A field of the update payload that carries null counts as omitted:
    replacing every null by an omitted field does not change the outcome of
    the call, the stored title, description or status is left as it was when
    the payload carries null for it, and no update call ever turns the
    description of a stored record from a string into null. *)
Theorem null_is_omitted (db : Session) (clk : Clock) (i : Z)
    (changes : RecordUpdate.t) :
  services.update_record db clk i changes
  = services.update_record db clk i
      (RecordUpdate.mk (drop_null (RecordUpdate.title changes))
         (drop_null (RecordUpdate.description changes))
         (drop_null (RecordUpdate.status changes)))
  ∧ (∀ rec rec' db',
       db !! i = Some rec →
       services.update_record db clk i changes = (inr rec', db') →
       db' !! i = Some rec'
       ∧ (RecordUpdate.title changes = Null → Record.title rec' = Record.title rec)
       ∧ (RecordUpdate.description changes = Null →
          Record.description rec' = Record.description rec)
       ∧ (RecordUpdate.status changes = Null →
          Record.status rec' = Record.status rec))
  ∧ (∀ j r,
       db !! j = Some r → is_Some (Record.description r) →
       ∃ r', (services.update_record db clk i changes).2 !! j = Some r'
             ∧ is_Some (Record.description r')).
Proof.
  split; [|split].
  - by destruct changes as [[] [] []].
  - intros rec rec' db' Hi E.
    destruct (update_record_cases db clk i changes rec Hi)
      as [(_ & _ & E')|[_ E']]; rewrite E' in E; [done|].
    injection E as <- <-.
    destruct (updated_columns clk changes rec) as (_ & -> & -> & -> & _).
    unfold services.new_title, services.new_status.
    repeat split; [apply lookup_insert_eq|..]; by intros ->.
  - intros j r Hj Hd. destruct (db !! i) as [rec|] eqn:Hi.
    2: { destruct (update_record_absent db clk i changes Hi) as (e & -> & _).
         by exists r. }
    destruct (update_record_cases db clk i changes rec Hi)
      as [(_ & _ & ->)|[_ ->]]; simpl; [by exists r|].
    destruct (decide (i = j)) as [->|Hne].
    + rewrite lookup_insert_eq. eexists. split; [done|].
      destruct (updated_columns clk changes rec) as (_ & _ & -> & _).
      simplify_eq. by destruct (attr _).
    + rewrite lookup_insert_ne by done. by exists r.
Qed.

Lemma null_is_omitted_witness :
  (∃ r', (services.update_record demo_db (at_time 500) 2 archive).2 !! 2 = Some r'
         ∧ is_Some (Record.description r'))
  ∧ Record.description (Record.mk 2 "B" (Some "second") "archived" 200 501)
    = Record.description demo_B.
Proof.
  destruct (null_is_omitted demo_db (at_time 500) 2 archive) as (_ & Hnull & H).
  split.
  - apply (H 2 demo_B); [reflexivity|by eexists].
  - destruct (Hnull demo_B (Record.mk 2 "B" (Some "second") "archived" 200 501)
                (<[2 := Record.mk 2 "B" (Some "second") "archived" 200 501]> demo_db)
                eq_refl eq_refl) as (_ & _ & Hd & _).
    by apply Hd.
Defined.

(** * Validation of request bodies *)

Section validation_facts.
Variable whitespace : Ascii.ascii → bool.
Implicit Types (s raw : string) (body : Body.t).

Lemma lstrip_length s : (String.length (lstrip whitespace s) ≤ String.length s)%nat.
Proof. induction s as [|a s IH]; simpl; [lia|]. destruct (whitespace a); simpl; lia. Qed.

Lemma rstrip_length s : (String.length (rstrip whitespace s) ≤ String.length s)%nat.
Proof.
  induction s as [|a s IH]; simpl; [lia|].
  destruct (rstrip whitespace s); [destruct (whitespace a)|]; simpl in *; lia.
Qed.

Lemma strip_length s : (String.length (strip whitespace s) ≤ String.length s)%nat.
Proof.
  unfold strip. pose proof (rstrip_length (lstrip whitespace s)).
  pose proof (lstrip_length s). lia.
Qed.

(** What [lstrip] leaves is empty or starts with a character it keeps. *)
Lemma lstrip_head s :
  lstrip whitespace s = EmptyString
  ∨ ∃ a t, lstrip whitespace s = String a t ∧ whitespace a = false.
Proof.
  induction s as [|a s IH]; simpl; [by left|].
  destruct (whitespace a) eqn:E; [done|]. right. by exists a, s.
Qed.

Lemma rstrip_idempotent s : rstrip whitespace (rstrip whitespace s) = rstrip whitespace s.
Proof.
  induction s as [|a s IH]; simpl; [done|].
  destruct (rstrip whitespace s) as [|b r] eqn:E.
  - destruct (whitespace a) eqn:Ea; simpl; [done|]. by rewrite Ea.
  - simpl in *. by rewrite IH.
Qed.

Lemma strip_idempotent s : strip whitespace (strip whitespace s) = strip whitespace s.
Proof.
  unfold strip. destruct (lstrip_head s) as [->|(a & t & -> & Ea)]; [done|].
  assert (∃ t', rstrip whitespace (String a t) = String a t') as [t' Et].
  { simpl. destruct (rstrip whitespace t); [|by eexists].
    rewrite Ea. by eexists. }
  rewrite Et. simpl lstrip. rewrite Ea, <- Et. apply rstrip_idempotent.
Qed.

Lemma lstrip_blank s : blank whitespace s → lstrip whitespace s = EmptyString.
Proof.
  unfold blank. induction s as [|a s IH]; simpl; [done|].
  intros [Ha Hs]%Forall_cons. rewrite Ha. by apply IH.
Qed.

Lemma strip_blank s : blank whitespace s → strip whitespace s = EmptyString.
Proof. intros H. unfold strip. by rewrite lstrip_blank. Qed.

Lemma validate_constr_Some min_length max_length raw s :
  validate_constr whitespace min_length max_length raw = Some s
  ↔ s = strip whitespace raw ∧ constr min_length max_length s = true.
Proof.
  unfold validate_constr. simpl.
  destruct (constr min_length max_length (strip whitespace raw)) eqn:E.
  - split; [by intros [= <-]|]. by intros [-> _].
  - split; [done|]. intros [-> ?]. congruence.
Qed.

Lemma validate_constr_blank min_length max_length raw :
  (1 ≤ min_length)%nat → blank whitespace raw →
  validate_constr whitespace min_length max_length raw = None.
Proof.
  intros Hmin Hb. unfold validate_constr, constr. simpl.
  rewrite strip_blank by done. simpl.
  rewrite bool_decide_eq_false_2; [done|lia].
Qed.

Lemma validate_RecordCreate_valid body p :
  validate_RecordCreate whitespace body = Some p → RecordCreate.valid p = true.
Proof.
  unfold validate_RecordCreate, RecordCreate.valid.
  destruct (Body.title body) as [| |rawt]; try done.
  destruct (validate_constr whitespace 1 255 rawt) as [t|] eqn:Et; [|done].
  apply validate_constr_Some in Et as [_ Et]. simpl.
  destruct (Body.status body) as [| |raws]; simpl; [|done|].
  - intros [= <-]. simpl. by rewrite Et.
  - destruct (validate_constr whitespace 1 50 raws) as [st|] eqn:Es; [|done].
    apply validate_constr_Some in Es as [_ Es]. simpl.
    intros [= <-]. simpl. by rewrite Et, Es.
Qed.

Lemma validate_optional_Some min_length max_length (f f' : Field string) :
  validate_optional whitespace min_length max_length f = Some f' →
  RecordUpdate.valid_field min_length max_length f' = true
  ∧ match f with
    | Omitted => f' = Omitted
    | Null => f' = Null
    | Given raw => f' = Given (strip whitespace raw)
    end.
Proof.
  unfold validate_optional, RecordUpdate.valid_field.
  destruct f as [| |raw]; simpl; try by intros [= <-].
  destruct (validate_constr whitespace min_length max_length raw) as [s|] eqn:E;
    [|done].
  apply validate_constr_Some in E as [-> E]. simpl. by intros [= <-].
Qed.

Lemma validate_RecordUpdate_valid body changes :
  validate_RecordUpdate whitespace body = Some changes →
  RecordUpdate.valid changes = true.
Proof.
  unfold validate_RecordUpdate, RecordUpdate.valid.
  destruct (validate_optional whitespace 1 255 (Body.title body)) as [t|] eqn:Et;
    [|done].
  destruct (validate_optional whitespace 1 50 (Body.status body)) as [st|] eqn:Es;
    [|done].
  apply validate_optional_Some in Et as [Et _].
  apply validate_optional_Some in Es as [Es _].
  simpl. intros [= <-]. simpl. by rewrite Et, Es.
Qed.

Lemma accept_validated (c : Call) (req : Request) :
  accept whitespace c = Some req → validated req = true.
Proof.
  destruct c as [clk body|clk i body|i]; simpl.
  - destruct (validate_RecordCreate whitespace body) as [p|] eqn:E; [|done].
    intros [= <-]. by apply validate_RecordCreate_valid in E.
  - destruct (validate_RecordUpdate whitespace body) as [ch|] eqn:E; [|done].
    intros [= <-]. by apply validate_RecordUpdate_valid in E.
  - by intros [= <-].
Qed.

End validation_facts.

(** * The declared column widths as an invariant *)

Section rows_fit_facts.
Implicit Types (db : Session) (r rec : Record.t) (i j : Z)
  (payload : RecordCreate.t) (changes : RecordUpdate.t) (clk : Clock).

Lemma rows_fit_empty : rows_fit (∅ : Session).
Proof. intros i r H. by rewrite lookup_empty in H. Qed.

Lemma rows_fit_insert db i r :
  rows_fit db →
  constr 1 255 (Record.title r) = true → constr 1 50 (Record.status r) = true →
  rows_fit (<[i := r]> db).
Proof.
  intros Hf Ht Hs j r'. rewrite lookup_insert. case_decide; [|apply Hf].
  by intros [= <-].
Qed.

Lemma rows_fit_delete db i : rows_fit db → rows_fit (delete i db).
Proof. intros Hf j r'. rewrite lookup_delete. case_decide; [done|apply Hf]. Qed.

Lemma new_title_fits changes rec :
  RecordUpdate.valid changes = true →
  constr 1 255 (Record.title rec) = true →
  constr 1 255 (services.new_title changes rec) = true.
Proof.
  unfold RecordUpdate.valid, RecordUpdate.valid_field, services.new_title.
  intros [Ht _]%andb_true_iff Hrec.
  by destruct (attr (RecordUpdate.title changes)).
Qed.

Lemma new_status_fits changes rec :
  RecordUpdate.valid changes = true →
  constr 1 50 (Record.status rec) = true →
  constr 1 50 (services.new_status changes rec) = true.
Proof.
  unfold RecordUpdate.valid, RecordUpdate.valid_field, services.new_status.
  intros [_ Hs]%andb_true_iff Hrec.
  by destruct (attr (RecordUpdate.status changes)).
Qed.

Lemma handle_rows_fit req db :
  validated req = true → rows_fit db → rows_fit (handle req db).2.
Proof.
  intros Hv Hf. destruct req as [clk payload|clk i changes|i]; simpl in *.
  - rewrite main_create_record_session.
    destruct (create_record_cases db clk payload) as [(_ & _ & ->)|[_ ->]];
      [done|]. simpl.
    pose proof Hv as [Ht Hs]%andb_true_iff.
    apply rows_fit_insert; simpl; [done|done|]. by rewrite (str_or_valid _ Hv).
  - rewrite main_update_record_session. destruct (db !! i) as [rec|] eqn:Hi.
    2: { by destruct (update_record_absent db clk i changes Hi) as (e & -> & _). }
    destruct (update_record_cases db clk i changes rec Hi)
      as [(_ & _ & ->)|[_ ->]]; [done|]. simpl.
    destruct (updated_columns clk changes rec) as (_ & Et & _ & Es & _).
    destruct (Hf i rec Hi) as [Hrt Hrs].
    apply rows_fit_insert; [done|rewrite Et|rewrite Es].
    + by apply new_title_fits.
    + by apply new_status_fits.
  - rewrite main_delete_record_session. destruct (db !! i) eqn:Hi.
    2: { by rewrite delete_record_absent. }
    rewrite delete_record_cases, Hi. by apply rows_fit_delete.
Qed.

Lemma receive_all_preserves (whitespace : Ascii.ascii → bool) (calls : list Call) db :
  keyed_by_id db → unique_active db → rows_fit db →
  keyed_by_id (receive_all whitespace calls db)
  ∧ unique_active (receive_all whitespace calls db)
  ∧ rows_fit (receive_all whitespace calls db).
Proof.
  revert db. induction calls as [|c calls IH]; intros db Hk Hu Hf; [done|].
  change (receive_all whitespace (c :: calls) db)
    with (receive_all whitespace calls (receive whitespace c db)).
  unfold receive.
  destruct (accept whitespace c) as [req|] eqn:E; [|by apply IH].
  apply accept_validated in E.
  destruct (handle_preserves req db E Hk Hu) as [Hk' Hu'].
  apply IH; [done|done|]. by apply handle_rows_fit.
Qed.

End rows_fit_facts.

(** * Properties of the validators *)


(** X1. A body that [RecordCreate] accepts yields a model whose title has 1
    to 255 characters and whose status has 1 to 50; the title is the
    stripped title of the body, the description is passed on as it is
    (null and a missing key both as None), and the status is the stripped
    status of the body, or "active" when the key is missing. *)
Theorem validate_RecordCreate_sound (whitespace : Ascii.ascii → bool)
    (body : Body.t) (p : RecordCreate.t) :
  validate_RecordCreate whitespace body = Some p →
  RecordCreate.valid p = true
  ∧ (∃ raw, Body.title body = Given raw
            ∧ RecordCreate.title p = strip whitespace raw)
  ∧ strip whitespace (RecordCreate.title p) = RecordCreate.title p
  ∧ RecordCreate.description p = attr (Body.description body)
  ∧ match Body.status body with
    | Omitted => RecordCreate.status p = "active"
    | Null => False
    | Given raw => RecordCreate.status p = strip whitespace raw
    end.
Proof.
  intros E. split; [by apply validate_RecordCreate_valid in E|].
  unfold validate_RecordCreate in E.
  destruct (Body.title body) as [| |rawt]; try done.
  destruct (validate_constr whitespace 1 255 rawt) as [t|] eqn:Et; [|done].
  apply validate_constr_Some in Et as [-> _]. simpl in E.
  destruct (Body.status body) as [| |raws]; simpl in E; [|done|].
  - injection E as <-. simpl. split; [by eexists|].
    by rewrite strip_idempotent.
  - destruct (validate_constr whitespace 1 50 raws) as [st|] eqn:Es; [|done].
    apply validate_constr_Some in Es as [-> _]. injection E as <-. simpl.
    split; [by eexists|]. by rewrite strip_idempotent.
Qed.

Lemma validate_RecordCreate_sound_witness :
  RecordCreate.valid (RecordCreate.mk "A" (Some "first") "active") = true.
Proof.
  exact (proj1 (validate_RecordCreate_sound Ascii.is_space body_A
                  (RecordCreate.mk "A" (Some "first") "active") eq_refl)).
Defined.

(** X2. A string that passed a [constr] validator passes it again
    unchanged, and validation never makes a string longer. *)
Theorem validate_constr_idempotent (whitespace : Ascii.ascii → bool)
    (min_length max_length : nat) (raw s : string) :
  validate_constr whitespace min_length max_length raw = Some s →
  validate_constr whitespace min_length max_length s = Some s
  ∧ (min_length ≤ String.length s ≤ max_length)%nat
  ∧ (String.length s ≤ String.length raw)%nat.
Proof.
  intros [-> Hc]%validate_constr_Some. split; [|split].
  - apply validate_constr_Some. by rewrite strip_idempotent.
  - unfold constr in Hc. by apply bool_decide_eq_true in Hc.
  - apply strip_length.
Qed.

Lemma validate_constr_idempotent_witness :
  validate_constr Ascii.is_space 1 255 "A" = Some "A".
Proof.
  exact (proj1 (validate_constr_idempotent Ascii.is_space 1 255 "  A " "A" eq_refl)).
Defined.

(** X3. A create body is refused when its title is missing, null, empty or
    made of whitespace only, and also when its status is null, empty or
    made of whitespace only; an update body is refused when its title or
    its status is a string that is empty or made of whitespace only. *)
Theorem blank_fields_refused (whitespace : Ascii.ascii → bool) (body : Body.t) :
  (match Body.title body with
   | Given raw => blank whitespace raw
   | Omitted | Null => True
   end
   ∨ match Body.status body with
     | Given raw => blank whitespace raw
     | Null => True
     | Omitted => False
     end →
   validate_RecordCreate whitespace body = None)
  ∧ ((∃ raw, blank whitespace raw
             ∧ (Body.title body = Given raw ∨ Body.status body = Given raw)) →
     validate_RecordUpdate whitespace body = None).
Proof.
  split.
  - unfold validate_RecordCreate. intros [Ht|Hs].
    + destruct (Body.title body) as [| |raw]; [done|done|].
      by rewrite validate_constr_blank.
    + destruct (Body.title body) as [| |rawt]; [done|done|].
      destruct (validate_constr whitespace 1 255 rawt); [|done]. simpl.
      destruct (Body.status body) as [| |raws]; [done|done|].
      by rewrite validate_constr_blank.
  - unfold validate_RecordUpdate, validate_optional.
    intros (raw & Hb & [->| ->]).
    + by rewrite validate_constr_blank.
    + rewrite (validate_constr_blank _ 1 50 raw) by done.
      by destruct (Body.title body) as [| |rawt];
        [| |destruct (validate_constr whitespace 1 255 rawt)].
Qed.

Lemma blank_fields_refused_witness :
  validate_RecordCreate Ascii.is_space (Body.mk (Given "  ") Omitted Omitted) = None
  ∧ validate_RecordUpdate Ascii.is_space (Body.mk Omitted Null (Given " ")) = None.
Proof.
  split.
  - apply (blank_fields_refused Ascii.is_space (Body.mk (Given "  ") Omitted Omitted)).
    left. simpl. by repeat constructor.
  - apply (blank_fields_refused Ascii.is_space (Body.mk Omitted Null (Given " "))).
    exists " ". split; [by repeat constructor|by right].
Defined.

(** X4. A body that [RecordUpdate] accepts yields a model that keeps, for
    title and status, a missing key missing and a null null and holds the
    stripped string otherwise, within the length bounds; the description is
    passed on untouched. *)
Theorem validate_RecordUpdate_sound (whitespace : Ascii.ascii → bool)
    (body : Body.t) (changes : RecordUpdate.t) :
  validate_RecordUpdate whitespace body = Some changes →
  RecordUpdate.valid changes = true
  ∧ RecordUpdate.description changes = Body.description body
  ∧ match Body.title body with
    | Omitted => RecordUpdate.title changes = Omitted
    | Null => RecordUpdate.title changes = Null
    | Given raw => RecordUpdate.title changes = Given (strip whitespace raw)
    end
  ∧ match Body.status body with
    | Omitted => RecordUpdate.status changes = Omitted
    | Null => RecordUpdate.status changes = Null
    | Given raw => RecordUpdate.status changes = Given (strip whitespace raw)
    end.
Proof.
  intros E. split; [by apply validate_RecordUpdate_valid in E|].
  unfold validate_RecordUpdate in E.
  destruct (validate_optional whitespace 1 255 (Body.title body)) as [t|] eqn:Et;
    [|done].
  destruct (validate_optional whitespace 1 50 (Body.status body)) as [st|] eqn:Es;
    [|done].
  apply validate_optional_Some in Et as [_ Et].
  apply validate_optional_Some in Es as [_ Es].
  simpl in E. injection E as <-. simpl. done.
Qed.

Lemma validate_RecordUpdate_sound_witness :
  RecordUpdate.valid (RecordUpdate.mk (Given "A") (Given "first") Omitted) = true.
Proof.
  exact (proj1 (validate_RecordUpdate_sound Ascii.is_space body_A keep_title eq_refl)).
Defined.

(** X5. Whatever bodies arrive, valid or not, and in whatever order: after
    the calls are served from the empty table, every record is stored under
    its id, no two active records share a title, and every stored title has
    1 to 255 characters and every stored status 1 to 50. *)
Theorem receive_all_invariants (whitespace : Ascii.ascii → bool) (calls : list Call) :
  keyed_by_id (receive_all whitespace calls ∅)
  ∧ unique_active (receive_all whitespace calls ∅)
  ∧ rows_fit (receive_all whitespace calls ∅).
Proof.
  apply receive_all_preserves;
    [apply keyed_by_id_empty|apply unique_active_empty|apply rows_fit_empty].
Qed.

(** * How the operations compose *)

Section composition_facts.
Implicit Types (db : Session) (r rec : Record.t) (i j : Z)
  (payload : RecordCreate.t) (changes : RecordUpdate.t) (clk : Clock).




(** Applying changes to a row that already carries them changes nothing. *)
Lemma apply_changes_fixed changes r :
  Record.title r = services.new_title changes r →
  Record.status r = services.new_status changes r →
  Record.description r
  = match attr (RecordUpdate.description changes) with
    | Some d => Some d
    | None => Record.description r
    end →
  services.apply_changes changes r = r.
Proof.
  unfold services.apply_changes, services.new_title, services.new_status.
  destruct r as [k t d s c u]. simpl.
  destruct (attr (RecordUpdate.title changes)),
    (attr (RecordUpdate.description changes)),
    (attr (RecordUpdate.status changes)); simpl; intros; by simplify_eq.
Qed.

Lemma new_title_updated clk changes rec :
  services.new_title changes (updated clk changes rec) = services.new_title changes rec.
Proof.
  destruct (updated_columns clk changes rec) as (_ & Et & _).
  unfold services.new_title in *. by destruct (attr (RecordUpdate.title changes)).
Qed.

Lemma new_status_updated clk changes rec :
  services.new_status changes (updated clk changes rec)
  = services.new_status changes rec.
Proof.
  destruct (updated_columns clk changes rec) as (_ & _ & _ & Es & _).
  unfold services.new_status in *. by destruct (attr (RecordUpdate.status changes)).
Qed.

(** Rewriting the row [i] without touching its id does not change which
    titles are active elsewhere. *)
Lemma active_elsewhere_insert db i rec rec' t :
  db !! i = Some rec → Record.id rec' = Record.id rec →
  active_elsewhere (<[i := rec']> db) t (Record.id rec)
  ↔ active_elsewhere db t (Record.id rec).
Proof.
  intros Hi Eid. unfold active_elsewhere. split.
  - intros (j & r & Hj & Hne & Ht & Hs). rewrite lookup_insert in Hj.
    case_decide; [by simplify_eq|]. by exists j, r.
  - intros (j & r & Hj & Hne & Ht & Hs). exists j, r.
    rewrite lookup_insert_ne; [done|]. intros <-. by simplify_eq.
Qed.


Lemma rows_insert_fresh db i r :
  db !! i = None → rows (<[i := r]> db) ≡ₚ r :: rows db.
Proof. intros Hi. unfold rows. by rewrite map_to_list_insert. Qed.

Lemma rows_delete db i r :
  db !! i = Some r → r :: rows (delete i db) ≡ₚ rows db.
Proof. intros Hi. unfold rows. by rewrite <- (map_to_list_delete db i r). Qed.

End composition_facts.









(** X10. Repeating a successful update is harmless: the same payload sent
    again for the same id succeeds, returns the same record and leaves the
    table exactly as the first call left it. *)
Theorem update_record_idempotent (db db' : Session) (clk clk' : Clock) (i : Z)
    (changes : RecordUpdate.t) (rec' : Record.t) :
  services.update_record db clk i changes = (inr rec', db') →
  services.update_record db' clk' i changes = (inr rec', db').
Proof.
  intros E. destruct (db !! i) as [rec|] eqn:Hi.
  2: { by destruct (update_record_absent db clk i changes Hi) as (e & E' & _);
         rewrite E' in E. }
  destruct (update_record_cases db clk i changes rec Hi)
    as [(_ & _ & E')|[Hno E']]; rewrite E' in E; [done|].
  injection E as <- <-.
  destruct (updated_columns clk changes rec) as (Eid & Et & Ed & Es & _).
  assert (<[i := updated clk changes rec]> db !! i = Some (updated clk changes rec))
    as Hi' by apply lookup_insert_eq.
  destruct (update_record_cases _ clk' i changes _ Hi')
    as [(Hs & Ha & _)|[_ ->]].
  - exfalso. apply Hno. rewrite new_status_updated in Hs.
    rewrite new_title_updated, Eid in Ha. split; [done|].
    by apply (active_elsewhere_insert db i rec (updated clk changes rec)).
  - assert (updated clk' changes (updated clk changes rec) = updated clk changes rec)
      as ->.
    { unfold updated at 1. rewrite apply_changes_fixed.
      - unfold services.flush. by rewrite decide_True.
      - by rewrite new_title_updated.
      - by rewrite new_status_updated.
      - rewrite Ed. by destruct (attr _). }
    by rewrite insert_insert_eq.
Qed.

Lemma update_record_idempotent_witness :
  ∃ rec' db',
    services.update_record demo_db (at_time 500) 1 keep_title = (inr rec', db')
    ∧ services.update_record db' (at_time 600) 1 keep_title = (inr rec', db').
Proof.
  eexists _, _. split; [reflexivity|].
  exact (update_record_idempotent demo_db _ (at_time 500) (at_time 600) 1 keep_title
           _ eq_refl).
Defined.



(** X12. The writing routes answer 201 or 409 for a create, 200, 404 or
    409 for an update and 204 or 404 for a delete; the one other answer is
    500, for an update or a delete whose id lies outside the signed 64-bit
    range and is therefore not stored, where the driver's [OverflowError]
    escapes the route.  A call that is answered with an error code, 500
    included, has not written anything, and a 404 or 409 carries a detail
    message. *)
Theorem refused_requests_write_nothing (req : Request) (db : Session) :
  let code := main.status_code (handle req db).1 in
  match req with
  | POST_records _ _ => code = 201 ∨ code = 409
  | PUT_records _ record_id _ =>
      code = 200 ∨ code = 404 ∨ code = 409
      ∨ (code = 500 ∧ in_int64 record_id = false ∧ db !! record_id = None)
  | DELETE_records record_id =>
      code = 204 ∨ code = 404
      ∨ (code = 500 ∧ in_int64 record_id = false ∧ db !! record_id = None)
  end
  ∧ (400 ≤ code → (handle req db).2 = db)
  ∧ (code = 404 ∨ code = 409 →
     ∃ detail, main.content (handle req db).1 = main.Detail detail).
Proof.
  destruct req as [clk payload|clk i changes|i]; simpl.
  - unfold main.create_record.
    destruct (create_record_cases db clk payload) as [(_ & _ & ->)|[_ ->]]; simpl.
    + split; [by right|]. split; [done|]. intros _. by eexists.
    + split; [by left|]. unfold main.HTTP_201_CREATED. split; [lia|].
      intros [?|?]; lia.
  - unfold main.update_record. destruct (db !! i) as [rec|] eqn:Hi.
    + destruct (update_record_cases db clk i changes rec Hi)
        as [(_ & _ & ->)|[_ ->]]; simpl.
      * split; [by right; right; left|]. split; [done|]. intros _. by eexists.
      * split; [by left|]. split; [lia|]. intros [?|?]; lia.
    + destruct (in_int64 i) eqn:Hr.
      * rewrite update_record_missing by done. simpl.
        split; [by right; left|]. split; [done|]. intros _. by eexists.
      * rewrite update_record_overflow by done. simpl.
        split; [by right; right; right|]. split; [done|]. intros [?|?]; lia.
  - unfold main.delete_record. rewrite delete_record_cases.
    destruct (db !! i) eqn:Hi; simpl.
    + split; [by left|]. unfold main.HTTP_204_NO_CONTENT. split; [lia|].
      intros [?|?]; lia.
    + destruct (in_int64 i) eqn:Hr; simpl.
      * split; [by right; left|]. split; [done|]. intros _. by eexists.
      * split; [by right; right|]. split; [done|]. intros [?|?]; lia.
Qed.

Lemma refused_requests_write_nothing_witness :
  (handle (POST_records (at_time 500) post_A) demo_db).2 = demo_db
  ∧ (handle (DELETE_records too_large) demo_db).2 = demo_db.
Proof.
  split.
  - destruct (refused_requests_write_nothing (POST_records (at_time 500) post_A)
                demo_db) as (_ & H & _).
    apply H. by vm_compute.
  - destruct (refused_requests_write_nothing (DELETE_records too_large) demo_db)
      as (_ & H & _).
    apply H. by vm_compute.
Defined.

(** X13. A write shows in the listing as one entry: the unfiltered listing
    after a successful create is the listing before plus the new record, a
    filtered listing gains it exactly when its status is the filter; the
    listing before a delete is the listing after plus the deleted record;
    and a successful update exchanges the old record for the new one. *)
Theorem listing_after_write (db : Session) :
  (∀ clk payload rec db',
     services.create_record db clk payload = (inr rec, db') →
     services.list_records db' None ≡ₚ rec :: services.list_records db None
     ∧ ∀ s, s ≠ "" →
         services.list_records db' (Some s)
         ≡ₚ if decide (Record.status rec = s)
            then rec :: services.list_records db (Some s)
            else services.list_records db (Some s))
  ∧ (∀ i rec,
       db !! i = Some rec →
       rec :: services.list_records (services.delete_record db i).2 None
       ≡ₚ services.list_records db None)
  ∧ (∀ clk i changes rec rec' db',
       db !! i = Some rec →
       services.update_record db clk i changes = (inr rec', db') →
       rec :: services.list_records db' None
       ≡ₚ rec' :: services.list_records db None).
Proof.
  split; [|split].
  - intros clk payload rec db' E.
    destruct (create_record_cases db clk payload) as [(_ & _ & E')|[_ E']];
      rewrite E' in E; [done|]. injection E as <- <-.
    pose proof (rows_insert_fresh db (next_id db) (inserted db clk payload)
                  (next_id_fresh db)) as Hrows.
    split.
    + rewrite !list_records_unfiltered by (by left).
      by rewrite !merge_sort_Permutation.
    + intros s Hs. rewrite !list_records_filter by done.
      case_decide; rewrite !merge_sort_Permutation, Hrows;
        [by rewrite filter_cons_True|by rewrite filter_cons_False].
  - intros i rec Hi. rewrite delete_record_cases, Hi. simpl.
    rewrite !list_records_unfiltered by (by left).
    rewrite !merge_sort_Permutation. by apply rows_delete.
  - intros clk i changes rec rec' db' Hi E.
    destruct (update_record_cases db clk i changes rec Hi)
      as [(_ & _ & E')|[_ E']]; rewrite E' in E; [done|]. injection E as <- <-.
    rewrite !list_records_unfiltered by (by left).
    rewrite !merge_sort_Permutation.
    rewrite <- (rows_delete db i rec Hi), <- insert_delete_eq.
    rewrite rows_insert_fresh by apply lookup_delete_eq. apply perm_swap.
Qed.

Lemma listing_after_write_witness :
  demo_A :: services.list_records (services.delete_record demo_db 1).2 None
  ≡ₚ services.list_records demo_db None.
Proof.
  exact (proj1 (proj2 (listing_after_write demo_db)) 1 demo_A eq_refl).
Defined.



(** In a table keyed by id, the ids of the rows are the keys. *)
Lemma rows_ids (db : Session) :
  keyed_by_id db → Record.id <$> rows db = (map_to_list db).*1.
Proof.
  intros Hk. unfold rows.
  assert (∀ l : list (Z * Record.t),
    (∀ i r, (i, r) ∈ l → Record.id r = i) → Record.id <$> l.*2 = l.*1) as Hl.
  { induction l as [|[i r] l IH]; intros Hall; [done|]. simpl.
    rewrite (Hall i r) by left. f_equal. apply IH.
    intros j r' Hin. apply Hall. by right. }
  apply Hl. intros i r Hin%elem_of_map_to_list. by apply Hk.
Qed.

(** X15. What a read by id returns after a write: the record a create
    returned, under its id; the record an update returned, under the id of
    the call; not-found after a successful delete of an id within the
    signed 64-bit range (where every id SQLite assigns lies). *)
Theorem read_after_write (req : Request) (db : Session) :
  let resp := (handle req db).1 in
  let db' := (handle req db).2 in
  match req with
  | POST_records _ _ =>
      ∀ rec, main.content resp = main.JSONRecord rec →
             main.get_record (Record.id rec) db'
             = (main.mkResponse 200 (main.JSONRecord rec), db')
  | PUT_records _ record_id _ =>
      ∀ rec, main.content resp = main.JSONRecord rec →
             main.get_record record_id db'
             = (main.mkResponse 200 (main.JSONRecord rec), db')
  | DELETE_records record_id =>
      main.status_code resp = 204 → in_int64 record_id = true →
      main.get_record record_id db'
      = (main.HTTPException main.HTTP_404_NOT_FOUND "Record not found", db')
  end.
Proof.
  destruct req as [clk payload|clk i changes|i]; simpl.
  - unfold main.create_record.
    destruct (create_record_cases db clk payload) as [(_ & _ & ->)|[_ ->]];
      [done|]. simpl. intros rec [= <-].
    unfold main.get_record, services.get_record.
    by rewrite (get_stored _ _ _ (lookup_insert_eq _ _ _)).
  - unfold main.update_record. destruct (db !! i) as [rec0|] eqn:Hi.
    2: { by destruct (update_record_absent db clk i changes Hi)
           as ([| |] & -> & _). }
    destruct (update_record_cases db clk i changes rec0 Hi)
      as [(_ & _ & ->)|[_ ->]]; [done|]. simpl. intros rec [= <-].
    unfold main.get_record, services.get_record.
    by rewrite (get_stored _ _ _ (lookup_insert_eq _ _ _)).
  - unfold main.delete_record. rewrite delete_record_cases.
    destruct (db !! i) eqn:Hi; simpl.
    2: { by destruct (in_int64 i). }
    intros _ Hr. unfold main.get_record, services.get_record.
    by rewrite get_missing; [|apply lookup_delete_eq|].
Qed.

Lemma read_after_write_witness :
  main.get_record 3 (handle (DELETE_records 3) demo_db).2
  = (main.HTTPException main.HTTP_404_NOT_FOUND "Record not found",
     (handle (DELETE_records 3) demo_db).2).
Proof.
  apply (read_after_write (DELETE_records 3) demo_db); by vm_compute.
Defined.

(** X16. In a table keyed by id, no listing, filtered or not, shows an id
    twice. *)
Theorem listing_ids_distinct (db : Session) (status : option string) :
  keyed_by_id db → NoDup (Record.id <$> services.list_records db status).
Proof.
  intros Hk.
  assert (NoDup (Record.id <$> rows db)) as Hrows.
  { rewrite rows_ids by done. apply NoDup_fst_map_to_list. }
  unfold services.list_records. rewrite merge_sort_Permutation.
  destruct status as [s|]; [|done]. case_decide; [done|].
  eapply sublist_NoDup; [exact Hrows|].
  apply fmap_sublist, sublist_filter.
Qed.

Lemma listing_ids_distinct_witness :
  NoDup (Record.id <$> services.list_records demo_db (Some "archived")).
Proof.
  destruct (serve_preserves demo_requests ∅) as [Hk _];
    [repeat constructor|apply keyed_by_id_empty|apply unique_active_empty|].
  exact (listing_ids_distinct demo_db (Some "archived") Hk).
Defined.



